(** * coin_flip: the [flip] system of the Dojo world, verified

    A shallow embedding of [contracts/src/models.cairo] and
    [contracts/src/systems/actions.cairo].  Cairo integers are modelled as
    [Z] with their checked arithmetic written out (an overflowing [u32]
    addition panics, a failing [try_into] yields [None]); the Dojo world is
    a pair of finite maps keyed by the [#[key]] fields of each model plus
    the list of emitted events; a panic reverts the whole call. *)

From Stdlib Require Import ZArith Lia Bool.
From stdpp Require Import base option list gmap sorting strings.

Local Open Scope Z_scope.

(** ** Machine integers *)

Definition u8_MAX : Z := 255.
Definition u32_MAX : Z := 4294967295.

(** [ContractAddress] is an opaque field element; only equality is used. *)
Definition ContractAddress : Type := Z.

(** ** models.cairo *)

Module Player.
Record t : Type := mk {
    address : ContractAddress;
    total_flips : Z;
    wins : Z;
    losses : Z
  }.

  (** What [read_model] yields for a key that was never written: the key
      itself and zeroed values. *)
Definition zero (a : ContractAddress) : t :=
    {| address := a; total_flips := 0; wins := 0; losses := 0 |}.

Definition set_total_flips (v : Z) (p : t) : t :=
    {| address := address p; total_flips := v; wins := wins p; losses := losses p |}.
Definition set_wins (v : Z) (p : t) : t :=
    {| address := address p; total_flips := total_flips p; wins := v; losses := losses p |}.
Definition set_losses (v : Z) (p : t) : t :=
    {| address := address p; total_flips := total_flips p; wins := wins p; losses := v |}.
Definition set_address (a : ContractAddress) (p : t) : t :=
    {| address := a; total_flips := total_flips p; wins := wins p; losses := losses p |}.
End Player.

Module Game.
Record t : Type := mk {
    player : ContractAddress;
    game_id : Z;
    prediction : Z;
    outcome : Z;
    won : bool
  }.

  (** The composite [#[key]] of a record. *)
Definition key (g : t) : ContractAddress * Z := (player g, game_id g).

Definition zero (k : ContractAddress * Z) : t :=
    {| player := k.1; game_id := k.2; prediction := 0; outcome := 0; won := false |}.
End Game.

(** ** actions.cairo: the event *)

Module Flipped.
Record t : Type := mk {
    player : ContractAddress;
    game_id : Z;
    prediction : Z;
    outcome : Z;
    won : bool
  }.

Definition key (e : t) : ContractAddress * Z := (player e, game_id e).
End Flipped.

(** ** The world and the execution context *)

Record WorldStorage : Type := mkWorld {
  players : gmap Z Player.t;
  games : gmap (Z * Z) Game.t;
  events : list Flipped.t
}.

Definition genesis : WorldStorage :=
  {| players := ∅; games := ∅; events := [] |}.

(** What [starknet::get_caller_address] and [get_block_timestamp] return
    during one call. *)
Record ExecutionInfo : Type := mkInfo {
  caller_address : ContractAddress;
  block_timestamp : Z
}.

(** The panics the contract can raise, by their message. *)
Inductive PanicData : Type :=
  | Invalid_prediction
  | u32_add_Overflow
  | Option_unwrap_failed.

Inductive PanicResult (A : Type) : Type :=
  | Ok (a : A)
  | Panic (e : PanicData).
Arguments Ok {A} a.
Arguments Panic {A} e.

(** ** A state-and-panic monad for contract code *)

Definition Exec (A : Type) : Type :=
  ExecutionInfo → WorldStorage → PanicResult (A * WorldStorage).

Definition ret {A} (a : A) : Exec A := λ _ w, Ok (a, w).

Definition bind {A B} (m : Exec A) (k : A → Exec B) : Exec B :=
  λ i w, match m i w with
         | Ok (a, w') => k a i w'
         | Panic e => Panic e
         end.

Definition panic {A} (e : PanicData) : Exec A := λ _ _, Panic e.

Declare Scope exec_scope.
Delimit Scope exec_scope with exec.
Notation "'let*' x ':=' m 'in' k" := (bind m (λ x, k))
  (at level 10, x name, m at level 100, k at level 200) : exec_scope.
Notation "m ';;' k" := (bind m (λ _, k))
  (at level 100, k at level 200, right associativity) : exec_scope.

Definition assert (b : bool) (e : PanicData) : Exec unit :=
  if b then ret tt else panic e.

Definition unwrap {A} (o : option A) : Exec A :=
  match o with
  | Some a => ret a
  | None => panic Option_unwrap_failed
  end.

Definition get_caller_address : Exec ContractAddress :=
  λ i w, Ok (caller_address i, w).

Definition get_block_timestamp : Exec Z :=
  λ i w, Ok (block_timestamp i, w).

(** Checked [u32] addition: [a + b] panics with 'u32_add Overflow'. *)
Definition u32_add (a b : Z) : Exec Z :=
  if a + b <=? u32_MAX then ret (a + b) else panic u32_add_Overflow.

(** [TryInto<u64, u8>]. *)
Definition u64_try_into_u8 (x : Z) : option Z :=
  if (0 <=? x) && (x <=? u8_MAX) then Some x else None.

(** *** Model storage *)

Definition lookup_player (w : WorldStorage) (a : ContractAddress) : Player.t :=
  default (Player.zero a) (players w !! a).

Definition lookup_game (w : WorldStorage) (k : ContractAddress * Z) : Game.t :=
  default (Game.zero k) (games w !! k).

Definition read_model_Player (a : ContractAddress) : Exec Player.t :=
  λ _ w, Ok (lookup_player w a, w).

Definition write_model_Player (p : Player.t) : Exec unit :=
  λ _ w, Ok (tt, {| players := <[Player.address p := p]> (players w);
                    games := games w;
                    events := events w |}).

Definition write_model_Game (g : Game.t) : Exec unit :=
  λ _ w, Ok (tt, {| players := players w;
                    games := <[Game.key g := g]> (games w);
                    events := events w |}).

Definition emit_event (e : Flipped.t) : Exec unit :=
  λ _ w, Ok (tt, {| players := players w;
                    games := games w;
                    events := events w ++ [e] |}).

(** ** actions.cairo: [flip] *)

Definition flip (prediction : Z) : Exec unit :=
  (assert ((prediction =? 0) || (prediction =? 1)) Invalid_prediction ;;
   let* caller := get_caller_address in
   let* player := read_model_Player caller in
   let* timestamp := get_block_timestamp in
   let* outcome := unwrap (u64_try_into_u8 (timestamp `mod` 2)) in
   let won := prediction =? outcome in
   let* new_game_id := u32_add (Player.total_flips player) 1 in
   let player := Player.set_total_flips new_game_id player in
   let* player :=
     (if won
      then let* w := u32_add (Player.wins player) 1 in
           ret (Player.set_wins w player)
      else let* l := u32_add (Player.losses player) 1 in
           ret (Player.set_losses l player)) in
   let player := Player.set_address caller player in
   let game := {| Game.player := caller;
                  Game.game_id := new_game_id;
                  Game.prediction := prediction;
                  Game.outcome := outcome;
                  Game.won := won |} in
   write_model_Player player ;;
   write_model_Game game ;;
   emit_event {| Flipped.player := caller;
                 Flipped.game_id := new_game_id;
                 Flipped.prediction := prediction;
                 Flipped.outcome := outcome;
                 Flipped.won := won |})%exec.

(** ** Transactions

    A call to [flip] with its execution context.  A call that panics is
    reverted: the world it leaves behind is the one it started from. *)

Record Tx : Type := mkTx {
  tx_info : ExecutionInfo;
  tx_prediction : Z
}.

Definition call (tx : Tx) (w : WorldStorage) : PanicResult (unit * WorldStorage) :=
  flip (tx_prediction tx) (tx_info tx) w.

Definition succeeds (tx : Tx) (w : WorldStorage) : bool :=
  match call tx w with Ok _ => true | Panic _ => false end.

Definition execute (tx : Tx) (w : WorldStorage) : WorldStorage :=
  match call tx w with
  | Ok (_, w') => w'
  | Panic _ => w
  end.

Definition run (txs : list Tx) (w : WorldStorage) : WorldStorage :=
  foldl (λ w tx, execute tx w) w txs.

(** The number of calls of [txs] made by [p] that go through, the trace
    being run from [w]. *)
Fixpoint flips_by (p : ContractAddress) (txs : list Tx) (w : WorldStorage) : nat :=
  match txs with
  | [] => 0%nat
  | tx :: txs' =>
      ((if succeeds tx w && bool_decide (caller_address (tx_info tx) = p)
        then 1 else 0) + flips_by p txs' (execute tx w))%nat
  end.

(** ** What a call that goes through leaves behind

    The three values [flip] builds, as functions of the state it read; the
    lemmas below show that [flip] writes exactly these. *)

Section Applied.
Variables (prediction : Z) (i : ExecutionInfo) (w : WorldStorage).

Let caller := caller_address i.
Let before := lookup_player w caller.
Let coin := block_timestamp i `mod` 2.
Let guess := prediction =? coin.

Definition flipped_player : Player.t :=
    {| Player.address := caller;
       Player.total_flips := Player.total_flips before + 1;
       Player.wins := if guess then Player.wins before + 1 else Player.wins before;
       Player.losses := if guess then Player.losses before else Player.losses before + 1 |}.

Definition flipped_game : Game.t :=
    {| Game.player := caller;
       Game.game_id := Player.total_flips before + 1;
       Game.prediction := prediction;
       Game.outcome := coin;
       Game.won := guess |}.

Definition flipped_event : Flipped.t :=
    {| Flipped.player := caller;
       Flipped.game_id := Player.total_flips before + 1;
       Flipped.prediction := prediction;
       Flipped.outcome := coin;
       Flipped.won := guess |}.

Definition applied : WorldStorage :=
    {| players := <[caller := flipped_player]> (players w);
       games := <[(caller, Player.total_flips before + 1) := flipped_game]> (games w);
       events := events w ++ [flipped_event] |}.

  (** The conditions under which no checked addition of [flip] overflows. *)
Definition counters_fit : bool :=
    (Player.total_flips before + 1 <=? u32_MAX)
    && ((if guess then Player.wins before else Player.losses before) + 1 <=? u32_MAX).
End Applied.

(** ** The invariant of the world *)

(** The Game records of one player. *)
Definition games_of (p : ContractAddress) (w : WorldStorage) : gmap (Z * Z) Game.t :=
  filter (λ kv, kv.1.1 = p) (games w).

Definition binary (x : Z) : Prop := x = 0 ∨ x = 1.

Record player_ok (a : ContractAddress) (pl : Player.t) : Prop := {
  ok_address : Player.address pl = a;
  ok_wins : 0 ≤ Player.wins pl;
  ok_losses : 0 ≤ Player.losses pl;
  ok_sum : Player.wins pl + Player.losses pl = Player.total_flips pl;
  ok_u32 : Player.total_flips pl ≤ u32_MAX
}.

Record game_ok (k : ContractAddress * Z) (g : Game.t) : Prop := {
  ok_key : Game.key g = k;
  ok_prediction : binary (Game.prediction g);
  ok_outcome : binary (Game.outcome g);
  ok_won : Game.won g = (Game.prediction g =? Game.outcome g)
}.

(** The Game record an event describes. *)
Definition game_of_event (e : Flipped.t) : Game.t :=
  {| Game.player := Flipped.player e;
     Game.game_id := Flipped.game_id e;
     Game.prediction := Flipped.prediction e;
     Game.outcome := Flipped.outcome e;
     Game.won := Flipped.won e |}.

Record world_ok (w : WorldStorage) : Prop := {
  ok_players : ∀ a pl, players w !! a = Some pl → player_ok a pl;
  ok_games : ∀ k g, games w !! k = Some g → game_ok k g;
  ok_dense : ∀ a n,
    is_Some (games w !! (a, n)) ↔ 1 ≤ n ≤ Player.total_flips (lookup_player w a);
  ok_count : ∀ a,
    Z.of_nat (size (games_of a w)) = Player.total_flips (lookup_player w a);
  ok_events : ∀ e,
    e ∈ events w → games w !! Flipped.key e = Some (game_of_event e);
  ok_distinct : NoDup (Flipped.key <$> events w)
}.

(** The event a call emitted last, as the indexer sees it. *)
Definition last_event (w : WorldStorage) : option Flipped.t := last (events w).

(** The outcome a call reports: that of the event it emitted, if it went
    through. *)
Definition reported_outcome (r : PanicResult (unit * WorldStorage)) : option Z :=
  match r with
  | Ok (_, w') => Flipped.outcome <$> last_event w'
  | Panic _ => None
  end.

(** A player whose counters are at the top of [u32]. *)
Definition saturated (a : ContractAddress) : WorldStorage :=
  {| players := {[ a := {| Player.address := a;
                           Player.total_flips := u32_MAX;
                           Player.wins := u32_MAX;
                           Player.losses := 0 |} ]};
     games := ∅;
     events := [] |}.

(** ** Reading the world back

    What the values of a world amount to when they are read through the
    event log, and the ranges of the Cairo types they are declared with. *)

Definition in_u8 (x : Z) : Prop := 0 ≤ x ≤ u8_MAX.
Definition in_u32 (x : Z) : Prop := 0 ≤ x ≤ u32_MAX.

(** The calls of a trace made by [p]. *)
Definition calls_of (p : ContractAddress) (txs : list Tx) : list Tx :=
  filter (λ tx, caller_address (tx_info tx) = p) txs.

(** The events emitted for [p], oldest first. *)
Definition events_of (p : ContractAddress) (w : WorldStorage) : list Flipped.t :=
  filter (λ e, Flipped.player e = p) (events w).

Definition won_events (es : list Flipped.t) : list Flipped.t :=
  filter (λ e, Flipped.won e = true) es.

Definition lost_events (es : list Flipped.t) : list Flipped.t :=
  filter (λ e, Flipped.won e = false) es.

(** The Game table rebuilt from a list of events, each event standing for
    the record it describes. *)
Definition games_from_events (es : list Flipped.t) : gmap (Z * Z) Game.t :=
  list_to_map ((λ e, (Flipped.key e, game_of_event e)) <$> es).

(** Two worlds that hold the same for [p]: the Player record read, the
    Game records and the events of [p]. *)
Definition same_for (p : ContractAddress) (w1 w2 : WorldStorage) : Prop :=
  lookup_player w1 p = lookup_player w2 p
  ∧ games_of p w1 = games_of p w2
  ∧ events_of p w1 = events_of p w2.

(** ** client/src: the queries and what the page shows

    The indexer serves the model records of the world; a query filters,
    orders and truncates them as its text says. *)


(** [order: { field: GAME_ID, direction: DESC }]. *)
Definition game_id_desc (g1 g2 : Game.t) : Prop :=
  Game.game_id g2 ≤ Game.game_id g1.

#[global] Instance game_id_desc_dec : RelDecision game_id_desc :=
  λ g1 g2, decide (Game.game_id g2 ≤ Game.game_id g1).





Module App.

Record GameResult : Type := mkResult {
    prediction : Z;
    outcome : Z;
    won : bool
  }.



Definition coinAnimation (result : GameResult) : string :=
  if outcome result =? 0 then "heads" else "tails".

Definition resultText (lastResult : GameResult) : string :=
  if won lastResult then "You Won!" else "You Lost!".

Definition picked (lastResult : GameResult) : string :=
  if prediction lastResult =? 0 then "Heads" else "Tails".

Definition landed (lastResult : GameResult) : string :=
  if outcome lastResult =? 0 then "Heads" else "Tails".


End App.

(** ** The tests of the repository, replayed

    [test_flip] and [test_multiple_flips] of [tests/test_world.cairo], with
    the caller [0x1] and the block timestamp 0 of a fresh test world. *)

Example test_flip :
  let caller := 1 in
  let player_before := lookup_player genesis caller in
  let world := run [mkTx (mkInfo caller 0) 0] genesis in
  let player_after := lookup_player world caller in
  let game := lookup_game world (caller, 1) in
  Player.total_flips player_before = 0
  ∧ Player.wins player_before = 0
  ∧ Player.losses player_before = 0
  ∧ Player.total_flips player_after = 1
  ∧ Player.wins player_after + Player.losses player_after = 1
  ∧ Game.prediction game = 0
  ∧ (Game.outcome game = 0 ∨ Game.outcome game = 1)
  ∧ Game.won game = (Game.prediction game =? Game.outcome game).
Proof. vm_compute. repeat split; auto. Qed.

Example test_multiple_flips :
  let caller := 1 in
  let world :=
    run [mkTx (mkInfo caller 0) 0; mkTx (mkInfo caller 0) 1; mkTx (mkInfo caller 0) 0]
        genesis in
  let player := lookup_player world caller in
  Player.total_flips player = 3
  ∧ Player.wins player + Player.losses player = 3.
Proof. vm_compute. split; reflexivity. Qed.

(** Three flips predicting 0, 1, 0 under timestamps of parity 0, 0, 1. *)
Example three_flips :
  let world :=
    run [mkTx (mkInfo 10 100) 0; mkTx (mkInfo 10 102) 1; mkTx (mkInfo 10 105) 0]
        genesis in
  lookup_player world 10
  = {| Player.address := 10; Player.total_flips := 3;
       Player.wins := 1; Player.losses := 2 |}
  ∧ games world !! (10, 1)
    = Some {| Game.player := 10; Game.game_id := 1; Game.prediction := 0;
              Game.outcome := 0; Game.won := true |}
  ∧ games world !! (10, 2)
    = Some {| Game.player := 10; Game.game_id := 2; Game.prediction := 1;
              Game.outcome := 0; Game.won := false |}
  ∧ games world !! (10, 3)
    = Some {| Game.player := 10; Game.game_id := 3; Game.prediction := 0;
              Game.outcome := 1; Game.won := false |}
  ∧ games world !! (10, 4) = None
  ∧ length (events world) = 3%nat.
Proof. vm_compute. repeat split; reflexivity. Qed.

(** ** Basic facts *)

Lemma mod2_cases (t : Z) : t `mod` 2 = 0 ∨ t `mod` 2 = 1.
Proof. pose proof (Z.mod_pos_bound t 2). lia. Qed.

Lemma try_into_mod2 (t : Z) : u64_try_into_u8 (t `mod` 2) = Some (t `mod` 2).
Proof.
  unfold u64_try_into_u8, u8_MAX.
  destruct (mod2_cases t) as [-> | ->]; reflexivity.
Qed.

(** [flip], case by case. *)
Lemma flip_unfold prediction i w :
  flip prediction i w =
    if negb ((prediction =? 0) || (prediction =? 1)) then Panic Invalid_prediction
    else if counters_fit prediction i w then Ok (tt, applied prediction i w)
    else Panic u32_add_Overflow.
Proof.
  unfold flip, counters_fit, applied, flipped_player, flipped_game, flipped_event.
  unfold bind, assert, unwrap, u32_add, ret, panic, get_caller_address,
    get_block_timestamp, read_model_Player, write_model_Player,
    write_model_Game, emit_event.
  destruct ((prediction =? 0) || (prediction =? 1)); cbn; [| reflexivity].
  rewrite try_into_mod2. cbn.
  destruct (Player.total_flips _ + 1 <=? u32_MAX); cbn; [| reflexivity].
  destruct (prediction =? _); cbn;
    match goal with |- context [?a <=? u32_MAX] => destruct (a <=? u32_MAX) end;
    reflexivity.
Qed.

Lemma flip_Ok_inv prediction i w u w' :
  flip prediction i w = Ok (u, w') →
  (prediction = 0 ∨ prediction = 1)
  ∧ counters_fit prediction i w = true
  ∧ w' = applied prediction i w.
Proof.
  rewrite flip_unfold.
  destruct (prediction =? 0) eqn:E0; [apply Z.eqb_eq in E0 |];
    (destruct (prediction =? 1) eqn:E1; [apply Z.eqb_eq in E1 |]); cbn;
    try discriminate;
    (destruct (counters_fit prediction i w); [| discriminate]);
    intros [= <-]; auto.
Qed.

Lemma flip_Ok_intro prediction i w :
  prediction = 0 ∨ prediction = 1 →
  counters_fit prediction i w = true →
  flip prediction i w = Ok (tt, applied prediction i w).
Proof.
  intros Hp Hfit. rewrite flip_unfold, Hfit.
  destruct Hp as [-> | ->]; reflexivity.
Qed.

Lemma flip_Panic_invalid prediction i w :
  prediction ≠ 0 → prediction ≠ 1 →
  flip prediction i w = Panic Invalid_prediction.
Proof.
  intros H0 H1. rewrite flip_unfold.
  apply Z.eqb_neq in H0, H1. rewrite H0, H1. reflexivity.
Qed.

Lemma execute_Ok tx w u w' : call tx w = Ok (u, w') → execute tx w = w'.
Proof. unfold execute. intros ->. reflexivity. Qed.

Lemma execute_Panic tx w e : call tx w = Panic e → execute tx w = w.
Proof. unfold execute. intros ->. reflexivity. Qed.

Lemma execute_cases tx w :
  (succeeds tx w = true
   ∧ call tx w = Ok (tt, applied (tx_prediction tx) (tx_info tx) w)
   ∧ execute tx w = applied (tx_prediction tx) (tx_info tx) w)
  ∨ (succeeds tx w = false ∧ execute tx w = w).
Proof.
  unfold succeeds, execute.
  destruct (call tx w) as [[[] w'] | e] eqn:E; [left | right; auto].
  apply flip_Ok_inv in E as (_ & _ & ->). auto.
Qed.

Lemma run_nil w : run [] w = w.
Proof. reflexivity. Qed.

Lemma run_cons tx txs w : run (tx :: txs) w = run txs (execute tx w).
Proof. reflexivity. Qed.

Lemma run_snoc txs tx w : run (txs ++ [tx]) w = execute tx (run txs w).
Proof. unfold run. rewrite foldl_app. reflexivity. Qed.

(** *** Reading the world a call leaves behind *)

Lemma lookup_player_applied prediction i w a :
  lookup_player (applied prediction i w) a
  = if decide (caller_address i = a) then flipped_player prediction i w
    else lookup_player w a.
Proof.
  unfold lookup_player, applied; cbn.
  rewrite lookup_insert. destruct (decide (caller_address i = a)); reflexivity.
Qed.

Lemma players_applied_ne prediction i w a :
  caller_address i ≠ a →
  players (applied prediction i w) !! a = players w !! a.
Proof. intros Hne. unfold applied; cbn. by rewrite lookup_insert_ne. Qed.

Lemma games_applied_new prediction i w :
  games (applied prediction i w)
    !! (caller_address i, Player.total_flips (lookup_player w (caller_address i)) + 1)
  = Some (flipped_game prediction i w).
Proof. unfold applied; cbn. by rewrite lookup_insert_eq. Qed.

Lemma games_applied_ne prediction i w k :
  k ≠ (caller_address i, Player.total_flips (lookup_player w (caller_address i)) + 1) →
  games (applied prediction i w) !! k = games w !! k.
Proof. intros Hne. unfold applied; cbn. by rewrite lookup_insert_ne. Qed.

Lemma events_applied prediction i w :
  events (applied prediction i w) = events w ++ [flipped_event prediction i w].
Proof. reflexivity. Qed.

(** ** The invariant is established and preserved *)

Lemma player_ok_zero a : player_ok a (Player.zero a).
Proof. split; cbn; unfold u32_MAX; lia. Qed.

Lemma lookup_player_ok w a : world_ok w → player_ok a (lookup_player w a).
Proof.
  intros Hw. unfold lookup_player.
  destruct (players w !! a) as [pl |] eqn:E; cbn.
  - by apply (ok_players _ Hw).
  - apply player_ok_zero.
Qed.

Lemma next_game_fresh w a :
  world_ok w → games w !! (a, Player.total_flips (lookup_player w a) + 1) = None.
Proof.
  intros Hw. apply eq_None_not_Some. rewrite (ok_dense _ Hw). lia.
Qed.

Lemma flipped_player_ok prediction i w :
  world_ok w → counters_fit prediction i w = true →
  player_ok (caller_address i) (flipped_player prediction i w).
Proof.
  intros Hw Hfit.
  destruct (lookup_player_ok w (caller_address i) Hw) as [_ Hwin Hloss Hsum _].
  unfold counters_fit in Hfit. apply andb_true_iff in Hfit as [Htf _].
  apply Z.leb_le in Htf.
  split; unfold flipped_player; cbn; auto;
    destruct (prediction =? _); lia.
Qed.

Lemma flipped_game_ok prediction i w :
  prediction = 0 ∨ prediction = 1 →
  game_ok (caller_address i, Player.total_flips (lookup_player w (caller_address i)) + 1)
          (flipped_game prediction i w).
Proof.
  intros Hp. split; unfold flipped_game, binary; cbn; auto using mod2_cases.
Qed.

Lemma genesis_ok : world_ok genesis.
Proof.
  split; unfold genesis, games_of, lookup_player; cbn.
  - intros a pl. by rewrite lookup_empty.
  - intros k g. by rewrite lookup_empty.
  - intros a n. rewrite !lookup_empty; cbn. split; [by intros [? ?] | lia].
  - intros a. rewrite lookup_empty, map_filter_empty, map_size_empty. reflexivity.
  - intros e He. by apply elem_of_nil in He.
  - constructor.
Qed.

Lemma applied_ok prediction i w :
  world_ok w →
  prediction = 0 ∨ prediction = 1 →
  counters_fit prediction i w = true →
  world_ok (applied prediction i w).
Proof.
  intros Hw Hp Hfit.
  set (c := caller_address i).
  set (n := Player.total_flips (lookup_player w c)).
  pose proof (next_game_fresh w c Hw) as Hfresh. fold n in Hfresh.
  pose proof (lookup_player_ok w c Hw) as Hc.
  assert (0 ≤ n) as Hn by (destruct Hc; unfold n; lia).
  split.
  - intros a pl. unfold applied; cbn. fold c. rewrite lookup_insert.
    destruct (decide (c = a)) as [<- | Hne].
    + intros [= <-]. by apply flipped_player_ok.
    + apply (ok_players _ Hw).
  - intros k g. unfold applied; cbn. fold c n. rewrite lookup_insert.
    destruct (decide ((c, n + 1) = k)) as [<- | Hne].
    + intros [= <-]. by apply flipped_game_ok.
    + apply (ok_games _ Hw).
  - intros a m. rewrite lookup_player_applied. unfold applied; cbn. fold c n.
    rewrite lookup_insert.
    destruct (decide ((c, n + 1) = (a, m))) as [[= <- <-] | Hne].
    + rewrite decide_True by done. unfold flipped_player; cbn. fold c n.
      split; [lia | by eexists].
    + rewrite (ok_dense _ Hw).
      destruct (decide (c = a)) as [<- | Hca]; [| reflexivity].
      unfold flipped_player; cbn. fold c n.
      assert (m ≠ n + 1) by congruence. lia.
  - intros a. rewrite lookup_player_applied. unfold games_of, applied; cbn.
    fold c n. destruct (decide (c = a)) as [<- | Hca].
    + rewrite map_filter_insert_True by done.
      rewrite map_size_insert_None
        by (apply map_lookup_filter_None; left; exact Hfresh).
      pose proof (ok_count _ Hw c) as Hcnt. unfold games_of in Hcnt.
      unfold flipped_player; cbn. fold c n. fold n in Hcnt. lia.
    + rewrite map_filter_insert_not by (intros y; cbn; congruence).
      apply (ok_count _ Hw).
  - intros e. rewrite events_applied, elem_of_app, list_elem_of_singleton.
    unfold applied; cbn. fold c n. intros [He | ->].
    + pose proof (ok_events _ Hw e He) as Hg.
      rewrite lookup_insert_ne; [exact Hg |].
      intros Heq. rewrite <- Heq, Hfresh in Hg. discriminate.
    + unfold flipped_event, Flipped.key; cbn. fold c n.
      by rewrite lookup_insert_eq.
  - rewrite events_applied, fmap_app. cbn. apply NoDup_app. split_and!.
    + apply (ok_distinct _ Hw).
    + intros k Hk Hk'. apply list_elem_of_singleton in Hk'. subst k.
      apply list_elem_of_fmap in Hk as (e & Heq & He).
      pose proof (ok_events _ Hw e He) as Hg.
      unfold flipped_event, Flipped.key in Heq; cbn in Heq. fold c n in Heq.
      unfold Flipped.key in Hg. rewrite <- Heq, Hfresh in Hg. discriminate.
    + apply NoDup_singleton.
Qed.

Lemma execute_ok tx w : world_ok w → world_ok (execute tx w).
Proof.
  intros Hw. unfold execute.
  destruct (call tx w) as [[u w'] | e] eqn:E; [| exact Hw].
  apply flip_Ok_inv in E as (Hp & Hfit & ->). by apply applied_ok.
Qed.

Lemma run_ok txs w : world_ok w → world_ok (run txs w).
Proof.
  revert w. induction txs as [| tx txs IH]; intros w Hw; [exact Hw |].
  rewrite run_cons. apply IH. by apply execute_ok.
Qed.

Lemma reachable_ok txs : world_ok (run txs genesis).
Proof. apply run_ok, genesis_ok. Qed.

(** ** Counting the flips of a player *)

Lemma total_flips_execute p tx w :
  Player.total_flips (lookup_player (execute tx w) p)
  = Player.total_flips (lookup_player w p)
    + (if succeeds tx w && bool_decide (caller_address (tx_info tx) = p)
       then 1 else 0).
Proof.
  destruct (execute_cases tx w) as [(-> & _ & ->) | (-> & ->)]; cbn; [| lia].
  rewrite lookup_player_applied.
  destruct (decide (caller_address (tx_info tx) = p)) as [<- | Hne].
  - rewrite bool_decide_eq_true_2 by done. reflexivity.
  - rewrite bool_decide_eq_false_2 by done. lia.
Qed.

Lemma total_flips_run p txs w :
  Player.total_flips (lookup_player (run txs w) p)
  = Player.total_flips (lookup_player w p) + Z.of_nat (flips_by p txs w).
Proof.
  revert w. induction txs as [| tx txs IH]; intros w; cbn [flips_by].
  - rewrite run_nil. lia.
  - rewrite run_cons, IH, total_flips_execute.
    destruct (succeeds tx w && bool_decide _); lia.
Qed.

Lemma total_flips_reachable p txs :
  Player.total_flips (lookup_player (run txs genesis) p)
  = Z.of_nat (flips_by p txs genesis).
Proof. rewrite total_flips_run. reflexivity. Qed.

(** Two calls in a row by the same player, from a world that satisfies the
    invariant: the records they write sit at consecutive, distinct keys. *)
Lemma two_flips_two_games w tx1 tx2 u1 u2 w1 w2 :
  world_ok w →
  caller_address (tx_info tx2) = caller_address (tx_info tx1) →
  call tx1 w = Ok (u1, w1) →
  call tx2 w1 = Ok (u2, w2) →
  let p := caller_address (tx_info tx1) in
  let n := Player.total_flips (lookup_player w p) in
  games w !! (p, n + 1) = None
  ∧ games w1 !! (p, n + 1) = Some (flipped_game (tx_prediction tx1) (tx_info tx1) w)
  ∧ games w1 !! (p, n + 2) = None
  ∧ games w2 !! (p, n + 1) = games w1 !! (p, n + 1)
  ∧ games w2 !! (p, n + 2) = Some (flipped_game (tx_prediction tx2) (tx_info tx2) w1)
  ∧ Game.game_id (flipped_game (tx_prediction tx1) (tx_info tx1) w) = n + 1
  ∧ Game.game_id (flipped_game (tx_prediction tx2) (tx_info tx2) w1) = n + 2.
Proof.
  intros Hw Hsame H1 H2 p n.
  apply flip_Ok_inv in H1 as (Hp1 & Hfit1 & ->).
  apply flip_Ok_inv in H2 as (Hp2 & Hfit2 & ->).
  pose proof (applied_ok _ _ _ Hw Hp1 Hfit1) as Hw1.
  assert (Player.total_flips
            (lookup_player (applied (tx_prediction tx1) (tx_info tx1) w) p) = n + 1)
    as Hn1.
  { rewrite lookup_player_applied, decide_True by done. reflexivity. }
  assert (n + 1 + 1 = n + 2) as Hn2 by lia.
  split_and!.
  - by apply next_game_fresh.
  - apply games_applied_new.
  - rewrite <- Hn2, <- Hn1. by apply next_game_fresh.
  - apply games_applied_ne. rewrite Hsame. fold p. rewrite Hn1.
    intros [= ?]. lia.
  - pose proof (games_applied_new (tx_prediction tx2) (tx_info tx2)
                  (applied (tx_prediction tx1) (tx_info tx1) w)) as Hnew.
    rewrite Hsame in Hnew. fold p in Hnew. rewrite Hn1, Hn2 in Hnew. exact Hnew.
  - reflexivity.
  - unfold flipped_game; cbn. rewrite Hsame. fold p. rewrite Hn1. lia.
Qed.

(** What a call that goes through reports and stores as outcome. *)
Lemma flip_outcome_clock prediction i w u w' :
  flip prediction i w = Ok (u, w') →
  reported_outcome (flip prediction i w) = Some (block_timestamp i `mod` 2)
  ∧ Game.outcome <$> games w' !! (caller_address i,
                                  Player.total_flips (lookup_player w (caller_address i)) + 1)
    = Some (block_timestamp i `mod` 2).
Proof.
  intros Hflip. rewrite Hflip.
  apply flip_Ok_inv in Hflip as (_ & _ & ->).
  unfold reported_outcome, last_event.
  rewrite events_applied, last_snoc, games_applied_new. split; reflexivity.
Qed.

(** ** When the checked additions go through *)

Lemma flip_Panic_overflow prediction i w :
  prediction = 0 ∨ prediction = 1 →
  counters_fit prediction i w = false →
  flip prediction i w = Panic u32_add_Overflow.
Proof.
  intros Hp Hfit. rewrite flip_unfold, Hfit.
  destruct Hp as [-> | ->]; reflexivity.
Qed.

Lemma flip_Panic_cases prediction i w e :
  flip prediction i w = Panic e →
  (e = Invalid_prediction ∧ prediction ≠ 0 ∧ prediction ≠ 1)
  ∨ (e = u32_add_Overflow ∧ (prediction = 0 ∨ prediction = 1)
     ∧ counters_fit prediction i w = false).
Proof.
  rewrite flip_unfold.
  destruct (prediction =? 0) eqn:E0; [apply Z.eqb_eq in E0 | apply Z.eqb_neq in E0];
    (destruct (prediction =? 1) eqn:E1; [apply Z.eqb_eq in E1 | apply Z.eqb_neq in E1]);
    cbn; try (intros [= <-]; by left);
    (destruct (counters_fit prediction i w); [discriminate |]);
    intros [= <-]; right; auto.
Qed.

(** In a world that satisfies the invariant only [total_flips] matters:
    neither [wins] nor [losses] exceeds it. *)
Lemma counters_fit_ok prediction i w :
  world_ok w →
  counters_fit prediction i w = true
  ↔ Player.total_flips (lookup_player w (caller_address i)) < u32_MAX.
Proof.
  intros Hw.
  destruct (lookup_player_ok w (caller_address i) Hw) as [_ Hwin Hloss Hsum _].
  unfold counters_fit. rewrite andb_true_iff, !Z.leb_le.
  destruct (prediction =? _); lia.
Qed.

Lemma counters_fit_below prediction i w :
  Player.total_flips (lookup_player w (caller_address i)) < u32_MAX →
  Player.wins (lookup_player w (caller_address i)) < u32_MAX →
  Player.losses (lookup_player w (caller_address i)) < u32_MAX →
  counters_fit prediction i w = true.
Proof.
  intros Ht Hwin Hloss. unfold counters_fit.
  rewrite andb_true_iff, !Z.leb_le. destruct (prediction =? _); lia.
Qed.

(** The same call made [m] times in a row from the empty world goes through
    every time, as long as [m] stays within [u32]. *)
Lemma total_flips_replicate tx (n : nat) :
  tx_prediction tx = 0 ∨ tx_prediction tx = 1 →
  Z.of_nat n ≤ u32_MAX →
  Player.total_flips
    (lookup_player (run (replicate n tx) genesis) (caller_address (tx_info tx)))
  = Z.of_nat n.
Proof.
  intros Hp. induction n as [| n IH]; intros Hn.
  - reflexivity.
  - rewrite replicate_S_end, run_snoc, total_flips_execute, IH by lia.
    rewrite bool_decide_eq_true_2, andb_true_r by done.
    assert (succeeds tx (run (replicate n tx) genesis) = true) as ->; [| lia].
    unfold succeeds, call. rewrite flip_Ok_intro; [done | done |].
    apply counters_fit_ok; [apply reachable_ok |]. rewrite IH; lia.
Qed.

Lemma total_flips_saturate tx (m : Z) :
  tx_prediction tx = 0 ∨ tx_prediction tx = 1 →
  0 ≤ m ≤ u32_MAX →
  Player.total_flips
    (lookup_player (run (replicate (Z.to_nat m) tx) genesis) (caller_address (tx_info tx)))
  = m.
Proof.
  intros Hp Hm. rewrite total_flips_replicate by (try done; lia). lia.
Qed.

Lemma flip_after_u32_MAX_flips tx :
  tx_prediction tx = 0 ∨ tx_prediction tx = 1 →
  call tx (run (replicate (Z.to_nat u32_MAX) tx) genesis) = Panic u32_add_Overflow.
Proof.
  intros Hp. unfold call. apply flip_Panic_overflow; [exact Hp |].
  apply not_true_is_false. rewrite counters_fit_ok by apply reachable_ok.
  rewrite total_flips_saturate; [lia | exact Hp |]. unfold u32_MAX. lia.
Qed.

(** ** The specification, property by property *)

(** C1. Run any trace of calls from the empty world and let [n] be the
    number of calls by [p] in it that went through.  Then the Player record
    read for [p] has [total_flips = n]; a Game record is stored under
    [(p, k)] exactly when [1 <= k <= n], and [p] has [n] Game records in
    all; no two calls of the trace wrote under the same key; and two more
    calls by [p] that go through write two records under the consecutive
    keys [(p, n + 1)] and [(p, n + 2)], the second call leaving the record
    of the first as it was. *)
Theorem flip_count_dense (p : ContractAddress) (txs : list Tx) :
  let w := run txs genesis in
  let n := flips_by p txs genesis in
  Player.total_flips (lookup_player w p) = Z.of_nat n
  ∧ (∀ k, is_Some (games w !! (p, k)) ↔ 1 ≤ k ≤ Z.of_nat n)
  ∧ size (games_of p w) = n
  ∧ NoDup (Flipped.key <$> events w)
  ∧ (∀ tx1 tx2 u1 u2 w1 w2,
        caller_address (tx_info tx1) = p →
        caller_address (tx_info tx2) = p →
        call tx1 w = Ok (u1, w1) →
        call tx2 w1 = Ok (u2, w2) →
        ∃ g1 g2,
          Game.game_id g1 = Z.of_nat n + 1
          ∧ Game.game_id g2 = Game.game_id g1 + 1
          ∧ games w !! (p, Game.game_id g1) = None
          ∧ games w1 !! (p, Game.game_id g1) = Some g1
          ∧ games w1 !! (p, Game.game_id g2) = None
          ∧ games w2 !! (p, Game.game_id g1) = Some g1
          ∧ games w2 !! (p, Game.game_id g2) = Some g2).
Proof.
  intros w n.
  pose proof (reachable_ok txs) as Hw. fold w in Hw.
  pose proof (total_flips_reachable p txs) as Hn. fold w n in Hn.
  split_and!.
  - exact Hn.
  - intros k. rewrite (ok_dense _ Hw), Hn. reflexivity.
  - apply Nat2Z.inj. rewrite (ok_count _ Hw), Hn. reflexivity.
  - apply (ok_distinct _ Hw).
  - intros tx1 tx2 u1 u2 w1 w2 Hc1 Hc2 H1 H2.
    assert (caller_address (tx_info tx2) = caller_address (tx_info tx1)) as Hsame
      by congruence.
    destruct (two_flips_two_games w tx1 tx2 u1 u2 w1 w2 Hw Hsame H1 H2)
      as (Ha & Hb & Hc & Hd & He & Hf & Hg).
    rewrite Hc1, Hn in Ha, Hb, Hc, Hd, He, Hf, Hg.
    exists (flipped_game (tx_prediction tx1) (tx_info tx1) w),
           (flipped_game (tx_prediction tx2) (tx_info tx2) w1).
    rewrite Hf, Hg.
    replace (Z.of_nat n + 1 + 1) with (Z.of_nat n + 2) by lia.
    split_and!; try done. congruence.
Qed.

(** C2. The default record of a new identity has [wins + losses =
    total_flips]; so has every Player record stored in, and every record
    read from, a world reached from the empty one; and a call that goes
    through adds one to [total_flips] and to exactly one of [wins] (the
    prediction is the outcome) and [losses] (it is not), storing a record
    that satisfies the equation again. *)
Theorem wins_losses_total (txs : list Tx) :
  let w := run txs genesis in
  (∀ a, Player.wins (Player.zero a) + Player.losses (Player.zero a)
        = Player.total_flips (Player.zero a))
  ∧ (∀ a pl, players w !! a = Some pl →
             Player.wins pl + Player.losses pl = Player.total_flips pl)
  ∧ (∀ a, Player.wins (lookup_player w a) + Player.losses (lookup_player w a)
          = Player.total_flips (lookup_player w a))
  ∧ (∀ tx u w', call tx w = Ok (u, w') →
        let p := caller_address (tx_info tx) in
        let old := lookup_player w p in
        let new := lookup_player w' p in
        players w' !! p = Some new
        ∧ Player.total_flips new = Player.total_flips old + 1
        ∧ (if tx_prediction tx =? block_timestamp (tx_info tx) `mod` 2
           then Player.wins new = Player.wins old + 1
                ∧ Player.losses new = Player.losses old
           else Player.wins new = Player.wins old
                ∧ Player.losses new = Player.losses old + 1)
        ∧ Player.wins new + Player.losses new = Player.total_flips new).
Proof.
  intros w. pose proof (reachable_ok txs) as Hw. fold w in Hw.
  split_and!.
  - intros a. reflexivity.
  - intros a pl Hpl. apply (ok_sum a), (ok_players _ Hw), Hpl.
  - intros a. apply (ok_sum a), lookup_player_ok, Hw.
  - intros tx u w' Hcall p old new.
    apply flip_Ok_inv in Hcall as (Hp & Hfit & ->).
    pose proof (ok_sum _ _ (lookup_player_ok w p Hw)) as Hsum. fold old in Hsum.
    assert (new = flipped_player (tx_prediction tx) (tx_info tx) w) as ->.
    { unfold new. rewrite lookup_player_applied, decide_True by done. reflexivity. }
    split_and!.
    + unfold applied; cbn. by rewrite lookup_insert_eq.
    + reflexivity.
    + unfold flipped_player; cbn. fold p old. destruct (tx_prediction tx =? _); done.
    + unfold flipped_player; cbn. fold p old. destruct (tx_prediction tx =? _); lia.
Qed.

(** C3. A prediction other than 0 and 1 makes [flip] panic with 'Invalid
    prediction', whatever the execution context and the world are (the
    check comes before any read); the call is reverted, so the world after
    it is the world before it: every Player record, every Game record and
    the list of events are as they were. *)
Theorem invalid_prediction_rejected (prediction : Z) (i : ExecutionInfo) (w : WorldStorage) :
  prediction ≠ 0 → prediction ≠ 1 →
  flip prediction i w = Panic Invalid_prediction
  ∧ (∀ i' w', flip prediction i' w' = flip prediction i w)
  ∧ execute (mkTx i prediction) w = w
  ∧ (∀ a, players (execute (mkTx i prediction) w) !! a = players w !! a)
  ∧ (∀ k, games (execute (mkTx i prediction) w) !! k = games w !! k)
  ∧ events (execute (mkTx i prediction) w) = events w.
Proof.
  intros H0 H1.
  assert (execute (mkTx i prediction) w = w) as Hsame.
  { apply (execute_Panic _ _ Invalid_prediction). by apply flip_Panic_invalid. }
  rewrite Hsame. split_and!; try done.
  - by apply flip_Panic_invalid.
  - intros i' w'. by rewrite !flip_Panic_invalid.
Qed.

Lemma invalid_prediction_rejected_witness :
  (2 ≠ 0 ∧ 2 ≠ 1)
  ∧ flip 2 (mkInfo 1 100) genesis = Panic Invalid_prediction
  ∧ execute (mkTx (mkInfo 1 100) 2) genesis = genesis.
Proof.
  split; [lia |].
  destruct (invalid_prediction_rejected 2 (mkInfo 1 100) genesis)
    as (H & _ & H' & _); [lia | lia |].
  split; [exact H | exact H'].
Defined.

(** C4. Every Game record stored in a world reached from the empty one sits
    under its own key, has [prediction] and [outcome] in {0, 1} and
    [won = (prediction == outcome)]; and the record a call writes has the
    caller's prediction, the block timestamp modulo 2 as outcome, and
    [won] computed from the two. *)
Theorem game_records_consistent (txs : list Tx) :
  let w := run txs genesis in
  (∀ k g, games w !! k = Some g →
     Game.key g = k
     ∧ Game.won g = (Game.prediction g =? Game.outcome g)
     ∧ (Game.outcome g = 0 ∨ Game.outcome g = 1)
     ∧ (Game.prediction g = 0 ∨ Game.prediction g = 1))
  ∧ (∀ tx u w', call tx w = Ok (u, w') →
       let p := caller_address (tx_info tx) in
       let id := Player.total_flips (lookup_player w p) + 1 in
       games w' !! (p, id)
       = Some {| Game.player := p;
                 Game.game_id := id;
                 Game.prediction := tx_prediction tx;
                 Game.outcome := block_timestamp (tx_info tx) `mod` 2;
                 Game.won := tx_prediction tx =? block_timestamp (tx_info tx) `mod` 2 |}).
Proof.
  intros w. pose proof (reachable_ok txs) as Hw. fold w in Hw. split.
  - intros k g Hg. destruct (ok_games _ Hw k g Hg) as [Hk Hp Ho Hwon]. done.
  - intros tx u w' Hcall p id.
    apply flip_Ok_inv in Hcall as (_ & _ & ->). apply games_applied_new.
Qed.

(** C5. When a call goes through, the outcome it reports in its event and
    stores in its Game record is the block timestamp modulo 2.  With an
    even timestamp the outcome is 0 and a prediction of 0 wins: [won] is
    set and [wins] grows by one; for an identity with no record yet this
    leaves the Player record [{total_flips: 1, wins: 1, losses: 0}] and the
    Game record [{prediction: 0, outcome: 0, won: true}] under game 1. *)
Theorem outcome_is_timestamp_parity
    (prediction : Z) (i : ExecutionInfo) (w : WorldStorage) (u : unit) (w' : WorldStorage) :
  flip prediction i w = Ok (u, w') →
  let p := caller_address i in
  let id := Player.total_flips (lookup_player w p) + 1 in
  reported_outcome (flip prediction i w) = Some (block_timestamp i `mod` 2)
  ∧ Game.outcome <$> games w' !! (p, id) = Some (block_timestamp i `mod` 2)
  ∧ (Z.even (block_timestamp i) = true →
       reported_outcome (flip prediction i w) = Some 0
       ∧ (prediction = 0 →
            Game.won <$> games w' !! (p, id) = Some true
            ∧ Flipped.won <$> last_event w' = Some true
            ∧ Player.wins (lookup_player w' p) = Player.wins (lookup_player w p) + 1
            ∧ Player.losses (lookup_player w' p) = Player.losses (lookup_player w p)
            ∧ (players w !! p = None →
                 lookup_player w' p
                 = {| Player.address := p; Player.total_flips := 1;
                      Player.wins := 1; Player.losses := 0 |}
                 ∧ games w' !! (p, 1)
                   = Some {| Game.player := p; Game.game_id := 1;
                             Game.prediction := 0; Game.outcome := 0;
                             Game.won := true |}))).
Proof.
  intros Hflip p id. subst p id. rewrite Hflip.
  apply flip_Ok_inv in Hflip as (Hp & Hfit & ->).
  assert (last_event (applied prediction i w) = Some (flipped_event prediction i w))
    as Hlast by (unfold last_event; rewrite events_applied; apply last_snoc).
  assert (lookup_player (applied prediction i w) (caller_address i)
          = flipped_player prediction i w)
    as Hnew by (rewrite lookup_player_applied, decide_True by done; reflexivity).
  unfold reported_outcome. rewrite Hlast, Hnew, games_applied_new. cbn.
  split_and!; try reflexivity.
  intros Heven. apply Zeven_bool_iff, Zeven_ex_iff in Heven as [m Hm].
  assert (block_timestamp i `mod` 2 = 0) as Hmod.
  { rewrite Hm, Z.mul_comm. apply Z.mod_mul. lia. }
  rewrite Hmod. split; [reflexivity |]. intros ->. cbn.
  split_and!; try reflexivity.
  intros Hfresh. unfold flipped_player, flipped_game, lookup_player.
  rewrite Hfresh, Hmod. cbn. change (0 + 1) with 1.
  split; [reflexivity | apply lookup_insert_eq].
Qed.

Lemma outcome_is_timestamp_parity_witness :
  flip 0 (mkInfo 1 100) genesis = Ok (tt, applied 0 (mkInfo 1 100) genesis)
  ∧ reported_outcome (flip 0 (mkInfo 1 100) genesis) = Some 0
  ∧ Game.outcome <$> games (applied 0 (mkInfo 1 100) genesis) !! (1, 1) = Some 0.
Proof.
  assert (flip 0 (mkInfo 1 100) genesis = Ok (tt, applied 0 (mkInfo 1 100) genesis))
    as H by (vm_compute; reflexivity).
  split; [exact H |].
  destruct (outcome_is_timestamp_parity 0 (mkInfo 1 100) genesis tt _ H)
    as (H1 & H2 & _).
  split; [exact H1 | exact H2].
Defined.

(** C6. A call that goes through appends exactly one event to the events
    emitted so far, and this event carries the key and the fields of the
    Game record the call wrote; a call that panics leaves the events as
    they were.  So an event is emitted if and only if the call goes
    through. *)
Theorem one_event_per_flip (tx : Tx) (w : WorldStorage) :
  match call tx w with
  | Ok (_, w') =>
      execute tx w = w'
      ∧ ∃ e, events w' = events w ++ [e]
             ∧ games w' = <[Flipped.key e := game_of_event e]> (games w)
             ∧ games w' !! Flipped.key e = Some (game_of_event e)
             ∧ Flipped.player e = caller_address (tx_info tx)
             ∧ Flipped.game_id e
               = Player.total_flips (lookup_player w (caller_address (tx_info tx))) + 1
  | Panic _ => execute tx w = w ∧ events (execute tx w) = events w
  end
  ∧ (length (events (execute tx w)) = S (length (events w)) ↔ succeeds tx w = true)
  ∧ (events (execute tx w) = events w ↔ succeeds tx w = false).
Proof.
  unfold succeeds, execute.
  destruct (call tx w) as [[u w'] | e] eqn:Hcall.
  - apply flip_Ok_inv in Hcall as (_ & _ & ->). rewrite events_applied.
    split_and!.
    + reflexivity.
    + exists (flipped_event (tx_prediction tx) (tx_info tx) w).
      split_and!; try reflexivity. apply games_applied_new.
    + rewrite length_app. cbn. split; [done | lia].
    + split; [| done]. intros Heq.
      apply (f_equal length) in Heq. rewrite length_app in Heq. cbn in Heq. lia.
  - split_and!; try done. split; [lia | done].
Qed.

(** A stored Game record survives every later call. *)
Lemma games_kept_execute tx w k g :
  world_ok w → games w !! k = Some g → games (execute tx w) !! k = Some g.
Proof.
  intros Hw Hg.
  destruct (execute_cases tx w) as [(_ & _ & ->) | (_ & ->)]; [| exact Hg].
  rewrite games_applied_ne; [exact Hg |].
  intros ->. rewrite next_game_fresh in Hg by done. discriminate.
Qed.

Lemma games_kept_run txs w k g :
  world_ok w → games w !! k = Some g → games (run txs w) !! k = Some g.
Proof.
  revert w. induction txs as [| tx txs IH]; intros w Hw Hg; [exact Hg |].
  rewrite run_cons. apply IH; [by apply execute_ok | by apply games_kept_execute].
Qed.

(** C8. In a world reached from the empty one, a call by [p] that goes
    through stores the Player record of [p] and one Game record under the
    key [(p, total_flips + 1)], which held no record before; the Player
    record of every other identity and the Game record under every other
    key are as they were, so every Game record stored before the call is
    still there unchanged, and it stays so through every later call. *)
Theorem flip_frame (txs : list Tx) (tx : Tx) (u : unit) (w' : WorldStorage) :
  let w := run txs genesis in
  call tx w = Ok (u, w') →
  let p := caller_address (tx_info tx) in
  let k := (p, Player.total_flips (lookup_player w p) + 1) in
  (∀ q, q ≠ p → players w' !! q = players w !! q)
  ∧ games w !! k = None
  ∧ is_Some (games w' !! k)
  ∧ (∀ k', k' ≠ k → games w' !! k' = games w !! k')
  ∧ size (games w') = S (size (games w))
  ∧ (∀ k' g, games w !! k' = Some g → games w' !! k' = Some g)
  ∧ (∀ k' g later, games w' !! k' = Some g → games (run later w') !! k' = Some g).
Proof.
  intros w Hcall p k. pose proof (reachable_ok txs) as Hw. fold w in Hw.
  pose proof (next_game_fresh w p Hw) as Hfresh. fold k in Hfresh.
  assert (execute tx w = w') as Hexec by (by apply execute_Ok in Hcall).
  apply flip_Ok_inv in Hcall as (Hp & Hfit & Hw').
  split_and!.
  - intros q Hq. rewrite Hw'. by apply players_applied_ne.
  - exact Hfresh.
  - rewrite Hw'. eexists. apply games_applied_new.
  - intros k' Hk'. rewrite Hw'. by apply games_applied_ne.
  - rewrite Hw'. unfold applied; cbn. fold p k. by apply map_size_insert_None.
  - intros k' g Hg. rewrite <- Hexec. by apply games_kept_execute.
  - intros k' g later Hg. apply games_kept_run; [| exact Hg].
    rewrite <- Hexec. by apply execute_ok.
Qed.

Lemma flip_frame_witness :
  call (mkTx (mkInfo 1 101) 1) (run [mkTx (mkInfo 1 100) 0] genesis)
  = Ok (tt, run [mkTx (mkInfo 1 100) 0; mkTx (mkInfo 1 101) 1] genesis)
  ∧ games (run [mkTx (mkInfo 1 100) 0; mkTx (mkInfo 1 101) 1] genesis) !! (1, 1)
    = Some {| Game.player := 1; Game.game_id := 1; Game.prediction := 0;
              Game.outcome := 0; Game.won := true |}.
Proof.
  assert (call (mkTx (mkInfo 1 101) 1) (run [mkTx (mkInfo 1 100) 0] genesis)
          = Ok (tt, run [mkTx (mkInfo 1 100) 0; mkTx (mkInfo 1 101) 1] genesis))
    as H by (vm_compute; reflexivity).
  split; [exact H |].
  destruct (flip_frame [mkTx (mkInfo 1 100) 0] (mkTx (mkInfo 1 101) 1) tt _ H)
    as (_ & _ & _ & _ & _ & Hkept & _).
  apply Hkept. vm_compute. reflexivity.
Defined.

(** C9. Two calls that go through under the same block timestamp report
    the same outcome, in their events and in the Game records they write,
    whoever the callers are, whatever they predict and whatever the two
    worlds hold. *)
Theorem outcome_depends_on_clock_only
    (prediction1 prediction2 : Z) (i1 i2 : ExecutionInfo) (w1 w2 : WorldStorage)
    (u1 u2 : unit) (w1' w2' : WorldStorage) :
  block_timestamp i1 = block_timestamp i2 →
  flip prediction1 i1 w1 = Ok (u1, w1') →
  flip prediction2 i2 w2 = Ok (u2, w2') →
  reported_outcome (flip prediction1 i1 w1) = reported_outcome (flip prediction2 i2 w2)
  ∧ is_Some (reported_outcome (flip prediction1 i1 w1))
  ∧ Game.outcome <$> games w1' !! (caller_address i1,
                                   Player.total_flips (lookup_player w1 (caller_address i1)) + 1)
    = Game.outcome <$> games w2' !! (caller_address i2,
                                     Player.total_flips (lookup_player w2 (caller_address i2)) + 1).
Proof.
  intros Hts H1 H2.
  destruct (flip_outcome_clock prediction1 i1 w1 u1 w1' H1) as (E1 & G1).
  destruct (flip_outcome_clock prediction2 i2 w2 u2 w2' H2) as (E2 & G2).
  rewrite E1, E2, G1, G2, Hts. split_and!; done.
Qed.

Lemma outcome_depends_on_clock_only_witness :
  block_timestamp (mkInfo 1 7) = block_timestamp (mkInfo 2 7)
  ∧ reported_outcome (flip 0 (mkInfo 1 7) genesis)
    = reported_outcome (flip 1 (mkInfo 2 7) (run [mkTx (mkInfo 2 4) 0] genesis))
  ∧ reported_outcome (flip 0 (mkInfo 1 7) genesis) = Some 1.
Proof.
  split; [reflexivity |].
  assert (flip 0 (mkInfo 1 7) genesis = Ok (tt, applied 0 (mkInfo 1 7) genesis))
    as H1 by (vm_compute; reflexivity).
  assert (flip 1 (mkInfo 2 7) (run [mkTx (mkInfo 2 4) 0] genesis)
          = Ok (tt, applied 1 (mkInfo 2 7) (run [mkTx (mkInfo 2 4) 0] genesis)))
    as H2 by (vm_compute; reflexivity).
  destruct (outcome_depends_on_clock_only 0 1 (mkInfo 1 7) (mkInfo 2 7) genesis
              (run [mkTx (mkInfo 2 4) 0] genesis) tt tt _ _ eq_refl H1 H2)
    as (Heq & _ & _).
  split; [exact Heq | vm_compute; reflexivity].
Defined.

(** C10. The block timestamp modulo 2 is 0 or 1, whatever the timestamp, so
    its conversion to [u8] yields that very value, the [unwrap] returns it
    without touching the world, and [flip] never panics with
    'Option::unwrap failed'. *)
Theorem timestamp_parity_fits_u8 :
  (∀ t, t `mod` 2 = 0 ∨ t `mod` 2 = 1)
  ∧ (∀ t, u64_try_into_u8 (t `mod` 2) = Some (t `mod` 2))
  ∧ (∀ t i w, unwrap (u64_try_into_u8 (t `mod` 2)) i w = Ok (t `mod` 2, w))
  ∧ (∀ prediction i w, flip prediction i w ≠ Panic Option_unwrap_failed).
Proof.
  split_and!.
  - apply mod2_cases.
  - apply try_into_mod2.
  - intros t i w. rewrite try_into_mod2. reflexivity.
  - intros prediction i w Hpanic.
    apply flip_Panic_cases in Hpanic as [(? & _) | (? & _)]; discriminate.
Qed.

(** C7, as the code has it.  With a prediction in {0, 1}: reading the
    Player record never fails; [flip] goes through whenever the caller's
    three counters are below [u32::MAX]; in a world reached from the empty
    one it goes through exactly when the caller's [total_flips] is below
    [u32::MAX]; and when it does not go through, the panic is 'u32_add
    Overflow', raised by a checked addition on a counter. *)
Theorem flip_succeeds_below_u32_MAX (prediction : Z) (i : ExecutionInfo) (w : WorldStorage) :
  prediction = 0 ∨ prediction = 1 →
  let pl := lookup_player w (caller_address i) in
  read_model_Player (caller_address i) i w = Ok (pl, w)
  ∧ (Player.total_flips pl < u32_MAX → Player.wins pl < u32_MAX →
     Player.losses pl < u32_MAX →
     flip prediction i w = Ok (tt, applied prediction i w))
  ∧ (∀ txs, w = run txs genesis →
       (∃ w', flip prediction i w = Ok (tt, w')) ↔ Player.total_flips pl < u32_MAX)
  ∧ (∀ e, flip prediction i w = Panic e → e = u32_add_Overflow).
Proof.
  intros Hp pl. split_and!.
  - reflexivity.
  - intros Ht Hwin Hloss. apply flip_Ok_intro; [exact Hp |].
    by apply counters_fit_below.
  - intros txs ->. subst pl.
    rewrite <- (counters_fit_ok prediction i) by apply reachable_ok.
    split.
    + intros [w' Hflip]. by apply flip_Ok_inv in Hflip as (_ & Hfit & _).
    + intros Hfit. eexists. by apply flip_Ok_intro.
  - intros e Hpanic.
    apply flip_Panic_cases in Hpanic as [(_ & H0 & H1) | (-> & _)]; [| done].
    destruct Hp; contradiction.
Qed.

Lemma flip_succeeds_below_u32_MAX_witness :
  (0 = 0 ∨ 0 = 1)
  ∧ flip 0 (mkInfo 1 100) genesis = Ok (tt, applied 0 (mkInfo 1 100) genesis).
Proof.
  split; [by left |].
  destruct (flip_succeeds_below_u32_MAX 0 (mkInfo 1 100) genesis (or_introl eq_refl))
    as (_ & H & _).
  apply H; vm_compute; reflexivity.
Defined.

(** C7, as it is written, fails: a caller whose counters are at [u32::MAX]
    predicts 0 and [flip] panics with 'u32_add Overflow'; and this is where
    the caller stands after [u32::MAX] calls that went through. *)
Lemma flip_panics_at_u32_MAX :
  (tx_prediction (mkTx (mkInfo 1 0) 0) = 0 ∨ tx_prediction (mkTx (mkInfo 1 0) 0) = 1)
  ∧ call (mkTx (mkInfo 1 0) 0) (saturated 1) = Panic u32_add_Overflow
  ∧ call (mkTx (mkInfo 1 0) 0)
         (run (replicate (Z.to_nat u32_MAX) (mkTx (mkInfo 1 0) 0)) genesis)
    = Panic u32_add_Overflow.
Proof.
  split; [left; reflexivity |]. split.
  - vm_compute. reflexivity.
  - exact (flip_after_u32_MAX_flips (mkTx (mkInfo 1 0) 0) (or_introl eq_refl)).
Qed.

(** ** Beyond the specification: more of what the code shows *)

(** Induction over the worlds reached from the empty one: a call either
    panics and changes nothing, or goes through and leaves [applied]. *)
Lemma reachable_ind (P : WorldStorage → Prop) :
  P genesis →
  (∀ prediction i w,
     world_ok w → prediction = 0 ∨ prediction = 1 →
     counters_fit prediction i w = true →
     P w → P (applied prediction i w)) →
  ∀ txs, P (run txs genesis).
Proof.
  intros Hgen Hstep txs. induction txs as [| tx txs IH] using rev_ind; [exact Hgen |].
  rewrite run_snoc. unfold execute.
  destruct (call tx (run txs genesis)) as [[u w'] | e] eqn:E; [| exact IH].
  apply flip_Ok_inv in E as (Hp & Hfit & ->).
  apply Hstep; auto using reachable_ok.
Qed.

Lemma succeeds_below tx w :
  world_ok w →
  tx_prediction tx = 0 ∨ tx_prediction tx = 1 →
  Player.total_flips (lookup_player w (caller_address (tx_info tx))) < u32_MAX →
  succeeds tx w = true
  ∧ execute tx w = applied (tx_prediction tx) (tx_info tx) w.
Proof.
  intros Hw Hp Hlt. unfold succeeds, execute, call.
  rewrite flip_Ok_intro; [done | done |]. by apply counters_fit_ok.
Qed.

Lemma lookup_player_genesis a : lookup_player genesis a = Player.zero a.
Proof. unfold lookup_player, genesis; cbn. by rewrite lookup_empty. Qed.

(** What a call does to the record of any player. *)
Lemma lookup_player_execute tx w a :
  lookup_player (execute tx w) a = lookup_player w a
  ∨ (a = caller_address (tx_info tx)
     ∧ lookup_player (execute tx w) a
       = flipped_player (tx_prediction tx) (tx_info tx) w).
Proof.
  destruct (execute_cases tx w) as [(_ & _ & ->) | (_ & ->)]; [| by left].
  rewrite lookup_player_applied.
  destruct (decide (caller_address (tx_info tx) = a)) as [<- | Hne]; auto.
Qed.

(** X1. [test_flip] passes for every caller and under every block
    timestamp: in a fresh world the Player record reads as zeros, the call
    [flip(0)] goes through, and afterwards [total_flips] is 1, [wins +
    losses] is 1 and the Game record read under [(caller, 1)] has
    prediction 0, an outcome of 0 or 1 and a consistent [won] flag. *)
Theorem test_flip_passes (caller timestamp : Z) :
  let player_before := lookup_player genesis caller in
  let tx := mkTx (mkInfo caller timestamp) 0 in
  let world := execute tx genesis in
  let player_after := lookup_player world caller in
  let game := lookup_game world (caller, 1) in
  Player.total_flips player_before = 0
  ∧ Player.wins player_before = 0
  ∧ Player.losses player_before = 0
  ∧ succeeds tx genesis = true
  ∧ Player.total_flips player_after = 1
  ∧ Player.wins player_after + Player.losses player_after = 1
  ∧ Game.prediction game = 0
  ∧ (Game.outcome game = 0 ∨ Game.outcome game = 1)
  ∧ Game.won game = (Game.prediction game =? Game.outcome game).
Proof.
  intros player_before tx world player_after game.
  destruct (succeeds_below tx genesis genesis_ok) as [Hs He];
    [by left | rewrite lookup_player_genesis; cbn; unfold u32_MAX; lia |].
  subst player_before player_after game world. rewrite He.
  rewrite lookup_player_applied, decide_True by done.
  unfold lookup_game.
  change (caller, 1) with
    (caller_address (tx_info tx),
     Player.total_flips (lookup_player genesis (caller_address (tx_info tx))) + 1).
  rewrite games_applied_new.
  unfold flipped_player, flipped_game. cbn. rewrite !lookup_player_genesis. cbn.
  split_and!; try done.
  - destruct (timestamp `mod` 2); reflexivity.
  - apply mod2_cases.
Qed.

(** X2. [test_multiple_flips] passes for every caller and under every three
    block timestamps: the calls [flip(0)], [flip(1)], [flip(0)] all go
    through, and afterwards [total_flips] is 3 and [wins + losses] is 3. *)
Theorem test_multiple_flips_passes (caller t1 t2 t3 : Z) :
  let tx1 := mkTx (mkInfo caller t1) 0 in
  let tx2 := mkTx (mkInfo caller t2) 1 in
  let tx3 := mkTx (mkInfo caller t3) 0 in
  let player := lookup_player (run [tx1; tx2; tx3] genesis) caller in
  succeeds tx1 genesis = true
  ∧ succeeds tx2 (run [tx1] genesis) = true
  ∧ succeeds tx3 (run [tx1; tx2] genesis) = true
  ∧ Player.total_flips player = 3
  ∧ Player.wins player + Player.losses player = 3.
Proof.
  intros tx1 tx2 tx3 player.
  assert (∀ txs tx n,
            caller_address (tx_info tx) = caller →
            tx_prediction tx = 0 ∨ tx_prediction tx = 1 →
            Player.total_flips (lookup_player (run txs genesis) caller) = n →
            n < u32_MAX →
            succeeds tx (run txs genesis) = true
            ∧ Player.total_flips (lookup_player (run (txs ++ [tx]) genesis) caller)
              = n + 1) as Hstep.
  { intros txs tx n Hc Hp Hn Hlt.
    destruct (succeeds_below tx (run txs genesis) (reachable_ok txs) Hp) as [Hs He];
      [rewrite Hc, Hn; lia |].
    split; [exact Hs |].
    rewrite run_snoc, He, lookup_player_applied, decide_True by done.
    cbn. rewrite Hc, Hn. reflexivity. }
  destruct (Hstep [] tx1 0) as [S1 T1]; try done; [by left |].
  destruct (Hstep [tx1] tx2 1) as [S2 T2]; try done; [by right |].
  destruct (Hstep [tx1; tx2] tx3 2) as [S3 T3]; try done; [by left |].
  assert (Player.total_flips player = 3) as T by exact T3.
  split_and!; try done.
  rewrite <- T. apply (ok_sum caller), lookup_player_ok, reachable_ok.
Qed.

Lemma run_grows (txs : list Tx) (w : WorldStorage) (a : ContractAddress) :
  Player.total_flips (lookup_player w a) ≤ Player.total_flips (lookup_player (run txs w) a)
  ∧ Player.wins (lookup_player w a) ≤ Player.wins (lookup_player (run txs w) a)
  ∧ Player.losses (lookup_player w a) ≤ Player.losses (lookup_player (run txs w) a)
  ∧ (is_Some (players w !! a) → is_Some (players (run txs w) !! a))
  ∧ (∀ k, is_Some (games w !! k) → is_Some (games (run txs w) !! k)).
Proof.
  revert w. induction txs as [| tx txs IH]; intros w.
  - rewrite run_nil. split_and!; try done.
  - rewrite run_cons. destruct (IH (execute tx w)) as (IH1 & IH2 & IH3 & IH4 & IH5).
    assert (Player.total_flips (lookup_player w a)
              ≤ Player.total_flips (lookup_player (execute tx w) a)
            ∧ Player.wins (lookup_player w a)
              ≤ Player.wins (lookup_player (execute tx w) a)
            ∧ Player.losses (lookup_player w a)
              ≤ Player.losses (lookup_player (execute tx w) a)) as (H1 & H2 & H3).
    { destruct (lookup_player_execute tx w a) as [-> | [-> ->]]; [lia |].
      unfold flipped_player; cbn.
      destruct (tx_prediction tx =? _); lia. }
    split_and!; try lia.
    + intros Hs. apply IH4.
      destruct (execute_cases tx w) as [(_ & _ & ->) | (_ & ->)]; [| exact Hs].
      unfold applied; cbn. rewrite lookup_insert. case_decide; [by eexists | exact Hs].
    + intros k Hs. apply IH5.
      destruct (execute_cases tx w) as [(_ & _ & ->) | (_ & ->)]; [| exact Hs].
      unfold applied; cbn. rewrite lookup_insert. case_decide; [by eexists | exact Hs].
Qed.

(** X3. No call ever lowers a counter or removes a record: along every
    trace, from every world, [total_flips], [wins] and [losses] of every
    player only grow, and a Player or Game key that holds a record keeps
    holding one. *)
Theorem counters_never_decrease (txs : list Tx) (w : WorldStorage) (a : ContractAddress) :
  Player.total_flips (lookup_player w a) ≤ Player.total_flips (lookup_player (run txs w) a)
  ∧ Player.wins (lookup_player w a) ≤ Player.wins (lookup_player (run txs w) a)
  ∧ Player.losses (lookup_player w a) ≤ Player.losses (lookup_player (run txs w) a)
  ∧ (is_Some (players w !! a) → is_Some (players (run txs w) !! a))
  ∧ (∀ k, is_Some (games w !! k) → is_Some (games (run txs w) !! k)).
Proof. apply run_grows. Qed.

(** A stored Player record has seen at least one flip. *)
Lemma stored_player_flipped txs a pl :
  players (run txs genesis) !! a = Some pl → 1 ≤ Player.total_flips pl.
Proof.
  revert a pl. apply (reachable_ind (λ w, ∀ a pl, players w !! a = Some pl →
                                          1 ≤ Player.total_flips pl)).
  - intros a pl. unfold genesis; cbn. by rewrite lookup_empty.
  - intros prediction i w Hw Hp Hfit IH a pl. unfold applied; cbn.
    rewrite lookup_insert. case_decide; [| apply IH].
    intros [= <-]. unfold flipped_player; cbn.
    pose proof (lookup_player_ok w (caller_address i) Hw) as [_ ? ? ? _]. lia.
Qed.

(** X4. In a world reached from the empty one, a read that yields the
    zero-valued record means that nothing is stored under the key: no Game
    record written by [flip] has all its values zero, and no stored Player
    record has [total_flips = 0].  So a player who never flipped and a
    game never played are told apart from every stored record. *)
Theorem zero_read_means_absent (txs : list Tx) :
  let w := run txs genesis in
  (∀ k, lookup_game w k = Game.zero k ↔ games w !! k = None)
  ∧ (∀ a, lookup_player w a = Player.zero a ↔ players w !! a = None)
  ∧ (∀ a, Player.total_flips (lookup_player w a) = 0 ↔ players w !! a = None).
Proof.
  intros w. pose proof (reachable_ok txs) as Hw. fold w in Hw.
  assert (∀ a, Player.total_flips (lookup_player w a) = 0 ↔ players w !! a = None)
    as Hzero.
  { intros a. unfold lookup_player.
    destruct (players w !! a) as [pl |] eqn:E; cbn; [| done].
    apply stored_player_flipped in E. split; [lia | done]. }
  split_and!.
  - intros k. unfold lookup_game.
    destruct (games w !! k) as [g |] eqn:E; cbn; [| done].
    split; [| done]. intros Hg.
    destruct (ok_games _ Hw k g E) as [_ _ _ Hwon].
    rewrite Hg in Hwon. discriminate.
  - intros a. rewrite <- Hzero. split; [by intros -> |].
    intros H0. apply Hzero in H0. unfold lookup_player. by rewrite H0.
  - exact Hzero.
Qed.

(** X5. Every value stored or emitted in a world reached from the empty
    one lies in the range of its Cairo type: the three counters of a
    Player record are [u32] values with [wins] and [losses] at most
    [total_flips], its [address] is its key; the [game_id] of a Game
    record is a [u32] value from 1 on, its [prediction] and [outcome] are
    [u8] values; and so for the fields of every event. *)
Theorem stored_values_in_range (txs : list Tx) :
  let w := run txs genesis in
  (∀ a pl, players w !! a = Some pl →
     Player.address pl = a
     ∧ in_u32 (Player.total_flips pl) ∧ in_u32 (Player.wins pl)
     ∧ in_u32 (Player.losses pl)
     ∧ Player.wins pl ≤ Player.total_flips pl
     ∧ Player.losses pl ≤ Player.total_flips pl)
  ∧ (∀ k g, games w !! k = Some g →
       in_u32 (Game.game_id g) ∧ 1 ≤ Game.game_id g
       ∧ in_u8 (Game.prediction g) ∧ in_u8 (Game.outcome g))
  ∧ (∀ e, e ∈ events w →
       in_u32 (Flipped.game_id e) ∧ 1 ≤ Flipped.game_id e
       ∧ in_u8 (Flipped.prediction e) ∧ in_u8 (Flipped.outcome e)).
Proof.
  intros w. pose proof (reachable_ok txs) as Hw. fold w in Hw.
  assert (∀ k g, games w !! k = Some g →
            in_u32 (Game.game_id g) ∧ 1 ≤ Game.game_id g
            ∧ in_u8 (Game.prediction g) ∧ in_u8 (Game.outcome g)) as Hgames.
  { intros [a n] g Hg.
    destruct (ok_games _ Hw _ g Hg) as [Hk Hp Ho _].
    assert (1 ≤ n ≤ Player.total_flips (lookup_player w a)) as Hn
      by (apply (ok_dense _ Hw); by eexists).
    pose proof (ok_u32 _ _ (lookup_player_ok w a Hw)) as Hmax.
    injection Hk as _ ->.
    unfold in_u32, in_u8, u8_MAX, binary in *. lia. }
  split_and!.
  - intros a pl Hpl. destruct (ok_players _ Hw a pl Hpl) as [Ha ? ? ? ?].
    unfold in_u32. split_and!; try done; lia.
  - exact Hgames.
  - intros e He. apply (ok_events _ Hw), Hgames in He. exact He.
Qed.

(** *** The event log against the tables *)

Lemma game_of_flipped_event prediction i w :
  game_of_event (flipped_event prediction i w) = flipped_game prediction i w.
Proof. reflexivity. Qed.

Lemma fresh_key_not_logged w a :
  world_ok w →
  (a, Player.total_flips (lookup_player w a) + 1) ∉ Flipped.key <$> events w.
Proof.
  intros Hw Hin. apply list_elem_of_fmap in Hin as (e & Hk & He).
  pose proof (ok_events _ Hw e He) as Hg.
  rewrite <- Hk, next_game_fresh in Hg by done. discriminate.
Qed.

(** X6. The event log is a complete copy of the Game table: in a world
    reached from the empty one, the table rebuilt from the events, one
    record per event, is the stored table, and there are as many stored
    Game records as events. *)
Theorem games_rebuilt_from_events (txs : list Tx) :
  let w := run txs genesis in
  games_from_events (events w) = games w
  ∧ size (games w) = length (events w)
  ∧ (∀ k g, games w !! k = Some g →
       ∃ e, e ∈ events w ∧ Flipped.key e = k ∧ game_of_event e = g).
Proof.
  intros w.
  assert (games_from_events (events w) = games w) as Hrebuilt.
  { unfold w. apply (reachable_ind (λ w, games_from_events (events w) = games w)).
    - reflexivity.
    - intros prediction i w0 Hw Hp Hfit IH.
      unfold games_from_events in *. rewrite events_applied, fmap_app. cbn.
      rewrite list_to_map_snoc.
      + rewrite IH. reflexivity.
      + rewrite <- list_fmap_compose.
        apply (fresh_key_not_logged w0 (caller_address i) Hw). }
  pose proof (reachable_ok txs) as Hw. fold w in Hw.
  split_and!.
  - exact Hrebuilt.
  - rewrite <- Hrebuilt. unfold games_from_events.
    rewrite map_size_list_to_map, length_fmap; [done |].
    rewrite <- list_fmap_compose. apply (ok_distinct _ Hw).
  - intros k g Hg. rewrite <- Hrebuilt in Hg. unfold games_from_events in Hg.
    apply elem_of_list_to_map_2, list_elem_of_fmap in Hg as (e & [= -> ->] & He).
    by exists e.
Qed.

(** What the log of one player says about that player's record. *)
Lemma events_of_applied prediction i w p :
  events_of p (applied prediction i w)
  = events_of p w
    ++ (if decide (caller_address i = p) then [flipped_event prediction i w] else []).
Proof.
  unfold events_of. rewrite events_applied, filter_app. f_equal.
Qed.

Lemma log_of_player txs p :
  let w := run txs genesis in
  let log := events_of p w in
  Player.total_flips (lookup_player w p) = Z.of_nat (length log)
  ∧ Player.wins (lookup_player w p) = Z.of_nat (length (won_events log))
  ∧ Player.losses (lookup_player w p) = Z.of_nat (length (lost_events log))
  ∧ Flipped.game_id <$> log = Z.of_nat <$> seq 1 (length log).
Proof.
  cbn zeta. revert p.
  apply (reachable_ind (λ w, ∀ p,
    Player.total_flips (lookup_player w p) = Z.of_nat (length (events_of p w))
    ∧ Player.wins (lookup_player w p) = Z.of_nat (length (won_events (events_of p w)))
    ∧ Player.losses (lookup_player w p)
      = Z.of_nat (length (lost_events (events_of p w)))
    ∧ Flipped.game_id <$> events_of p w
      = Z.of_nat <$> seq 1 (length (events_of p w)))).
  - intros p. rewrite lookup_player_genesis. done.
  - intros prediction i w Hw Hp Hfit IH p.
    destruct (IH p) as (Ht & Hwin & Hloss & Hids).
    rewrite lookup_player_applied, events_of_applied.
    destruct (decide (caller_address i = p)) as [<- | Hne].
    + unfold won_events, lost_events in *.
      rewrite !filter_app, !length_app, fmap_app, !filter_cons, !filter_nil.
      cbn [length]. rewrite seq_app, fmap_app, <- Hids.
      unfold flipped_player, flipped_event; cbn.
      destruct (prediction =? _) eqn:E; cbn.
      * rewrite decide_True, decide_False by done. cbn.
        split_and!; try lia. f_equal. f_equal. lia.
      * rewrite decide_False, decide_True by done. cbn.
        split_and!; try lia. f_equal. f_equal. lia.
    + rewrite app_nil_r. done.
Qed.

(** X7. The Player record can be recomputed from the events: in a world
    reached from the empty one, [total_flips] of [p] is the number of
    events emitted for [p], [wins] the number of those with [won] set and
    [losses] the number of those without. *)
Theorem stats_recomputed_from_events (txs : list Tx) (p : ContractAddress) :
  let w := run txs genesis in
  let log := events_of p w in
  Player.total_flips (lookup_player w p) = Z.of_nat (length log)
  ∧ Player.wins (lookup_player w p) = Z.of_nat (length (won_events log))
  ∧ Player.losses (lookup_player w p) = Z.of_nat (length (lost_events log)).
Proof.
  intros w log. destruct (log_of_player txs p) as (H1 & H2 & H3 & _). done.
Qed.

(** X8. Events come out in the order of the games: the events emitted for
    one player, oldest first, carry the game ids 1, 2, 3, ... without a gap,
    whatever calls of other players lie in between. *)
Theorem events_in_game_order (txs : list Tx) (p : ContractAddress) :
  let log := events_of p (run txs genesis) in
  Flipped.game_id <$> log = Z.of_nat <$> seq 1 (length log)
  ∧ (∀ n e, log !! n = Some e → Flipped.game_id e = Z.of_nat n + 1).
Proof.
  intros log. destruct (log_of_player txs p) as (_ & _ & _ & Hids). fold log in Hids.
  split; [exact Hids |].
  intros n e Hn.
  assert ((Flipped.game_id <$> log) !! n = Some (Flipped.game_id e)) as Hid
    by (by rewrite list_lookup_fmap, Hn).
  rewrite Hids, list_lookup_fmap in Hid.
  destruct (seq 1 (length log) !! n) as [m |] eqn:E; [| discriminate].
  apply lookup_seq in E as [-> _]. injection Hid as <-. lia.
Qed.

(** *** Players do not interfere *)

Lemma games_of_applied prediction i w p :
  games_of p (applied prediction i w)
  = if decide (caller_address i = p)
    then <[(caller_address i, Player.total_flips (lookup_player w (caller_address i)) + 1)
           := flipped_game prediction i w]> (games_of p w)
    else games_of p w.
Proof.
  unfold games_of, applied; cbn.
  destruct (decide (caller_address i = p)) as [Heq | Hne].
  - by rewrite map_filter_insert_True.
  - by rewrite map_filter_insert_not.
Qed.

Lemma same_for_other tx w p :
  caller_address (tx_info tx) ≠ p → same_for p (execute tx w) w.
Proof.
  intros Hne.
  destruct (execute_cases tx w) as [(_ & _ & ->) | (_ & ->)]; [| done].
  unfold same_for.
  by rewrite lookup_player_applied, games_of_applied, events_of_applied,
    !decide_False, app_nil_r.
Qed.

Lemma same_for_own tx w1 w2 :
  same_for (caller_address (tx_info tx)) w1 w2 →
  succeeds tx w1 = succeeds tx w2
  ∧ same_for (caller_address (tx_info tx)) (execute tx w1) (execute tx w2).
Proof.
  intros (Hpl & Hg & He).
  assert (call tx w1 = Ok (tt, applied (tx_prediction tx) (tx_info tx) w1)
          ∧ call tx w2 = Ok (tt, applied (tx_prediction tx) (tx_info tx) w2)
          ∨ ∃ e, call tx w1 = Panic e ∧ call tx w2 = Panic e) as Hcall.
  { unfold call. rewrite !flip_unfold. unfold counters_fit. rewrite Hpl.
    destruct (negb _); [right; by eexists |].
    destruct (_ && _); [by left | right; by eexists]. }
  unfold succeeds, execute.
  destruct Hcall as [[-> ->] | (e & -> & ->)]; [| done].
  split; [done |]. unfold same_for.
  rewrite !lookup_player_applied, !games_of_applied, !events_of_applied.
  rewrite !decide_True by done.
  unfold flipped_player, flipped_game, flipped_event.
  by rewrite Hpl, Hg, He.
Qed.

Lemma same_for_run p txs w1 w2 :
  same_for p w1 w2 → same_for p (run txs w1) (run (calls_of p txs) w2).
Proof.
  revert w1 w2. induction txs as [| tx txs IH]; intros w1 w2 Hsame; [exact Hsame |].
  rewrite run_cons. unfold calls_of. rewrite filter_cons.
  destruct (decide (caller_address (tx_info tx) = p)) as [<- | Hne].
  - rewrite run_cons. apply IH. by apply same_for_own.
  - apply IH. destruct (same_for_other tx w1 p Hne) as (H1 & H2 & H3).
    destruct Hsame as (H1' & H2' & H3'). unfold same_for.
    by rewrite H1, H2, H3.
Qed.

(** X9. What a trace leaves for a player depends on that player's own
    calls only: dropping from a trace every call made by somebody else
    changes neither the Player record read for [p], nor the Game records
    of [p], nor the events emitted for [p], nor the number of calls by [p]
    that go through; this from every starting world. *)
Theorem own_calls_decide (txs : list Tx) (w : WorldStorage) (p : ContractAddress) :
  lookup_player (run txs w) p = lookup_player (run (calls_of p txs) w) p
  ∧ games_of p (run txs w) = games_of p (run (calls_of p txs) w)
  ∧ events_of p (run txs w) = events_of p (run (calls_of p txs) w)
  ∧ flips_by p txs w = flips_by p (calls_of p txs) w.
Proof.
  assert (∀ w1 w2, same_for p w1 w2 →
            flips_by p txs w1 = flips_by p (calls_of p txs) w2) as Hcount.
  { induction txs as [| tx txs IH]; intros w1 w2 Hsame; [reflexivity |].
    unfold calls_of. rewrite filter_cons. cbn [flips_by].
    destruct (decide (caller_address (tx_info tx) = p)) as [<- | Hne].
    - cbn [flips_by]. destruct (same_for_own tx w1 w2 Hsame) as [-> Hnext].
      f_equal. by apply IH.
    - rewrite bool_decide_eq_false_2, andb_false_r by done. cbn.
      apply IH. destruct (same_for_other tx w1 p Hne) as (H1 & H2 & H3).
      destruct Hsame as (H1' & H2' & H3'). unfold same_for.
      by rewrite H1, H2, H3. }
  destruct (same_for_run p txs w w) as (H1 & H2 & H3); [done |].
  split_and!; try done. by apply Hcount.
Qed.

(** *** What the client reads *)





#[local] Instance game_id_desc_trans : Transitive game_id_desc.
Proof. unfold game_id_desc. intros g1 g2 g3. lia. Qed.

#[local] Instance game_id_desc_total : Total game_id_desc.
Proof. unfold game_id_desc. intros g1 g2. lia. Qed.









(** X12. What the page says about a game agrees with itself: for every
    Game record stored in a world reached from the empty one, the text is
    "You Won!" exactly when the side shown as picked is the side shown as
    landed, "You Lost!" otherwise, and the coin shows heads exactly when
    the landed side reads "Heads". *)
Theorem result_text_matches_sides
    (txs : list Tx) (k : ContractAddress * Z) (g : Game.t) :
  games (run txs genesis) !! k = Some g →
  let result := {| App.prediction := Game.prediction g;
                   App.outcome := Game.outcome g;
                   App.won := Game.won g |} in
  (App.resultText result = "You Won!" ↔ App.picked result = App.landed result)
  ∧ (App.resultText result = "You Lost!" ↔ App.picked result ≠ App.landed result)
  ∧ (App.coinAnimation result = "heads" ↔ App.landed result = "Heads")
  ∧ (App.coinAnimation result = "tails" ↔ App.landed result = "Tails").
Proof.
  intros Hg result.
  destruct (ok_games _ (reachable_ok txs) k g Hg) as [_ Hp Ho Hwon].
  unfold App.resultText, App.picked, App.landed, App.coinAnimation; cbn.
  rewrite Hwon. destruct Hp as [-> | ->], Ho as [-> | ->]; cbn;
    split_and!; split; (done || discriminate).
Qed.

Lemma result_text_matches_sides_witness :
  games (run [mkTx (mkInfo 1 101) 0] genesis) !! (1, 1)
  = Some {| Game.player := 1; Game.game_id := 1; Game.prediction := 0;
            Game.outcome := 1; Game.won := false |}
  ∧ App.resultText {| App.prediction := 0; App.outcome := 1; App.won := false |}
    = "You Lost!"
  ∧ App.picked {| App.prediction := 0; App.outcome := 1; App.won := false |}
    ≠ App.landed {| App.prediction := 0; App.outcome := 1; App.won := false |}.
Proof.
  assert (games (run [mkTx (mkInfo 1 101) 0] genesis) !! (1, 1)
          = Some {| Game.player := 1; Game.game_id := 1; Game.prediction := 0;
                    Game.outcome := 1; Game.won := false |})
    as H by (vm_compute; reflexivity).
  split; [exact H |].
  destruct (result_text_matches_sides [mkTx (mkInfo 1 101) 0] (1, 1) _ H)
    as (_ & Hlost & _).
  split; [reflexivity |]. apply Hlost. reflexivity.
Defined.





(** *** Calls of different players *)

Lemma flipped_after_other prediction1 i1 prediction2 i2 w :
  caller_address i1 ≠ caller_address i2 →
  flipped_player prediction2 i2 (applied prediction1 i1 w) = flipped_player prediction2 i2 w
  ∧ flipped_game prediction2 i2 (applied prediction1 i1 w) = flipped_game prediction2 i2 w
  ∧ flipped_event prediction2 i2 (applied prediction1 i1 w)
    = flipped_event prediction2 i2 w.
Proof.
  intros Hne. unfold flipped_player, flipped_game, flipped_event.
  rewrite !lookup_player_applied, !decide_False by done. done.
Qed.

Lemma applied_commute prediction1 i1 prediction2 i2 w :
  caller_address i1 ≠ caller_address i2 →
  players (applied prediction2 i2 (applied prediction1 i1 w))
  = players (applied prediction1 i1 (applied prediction2 i2 w))
  ∧ games (applied prediction2 i2 (applied prediction1 i1 w))
    = games (applied prediction1 i1 (applied prediction2 i2 w))
  ∧ events (applied prediction2 i2 (applied prediction1 i1 w))
    ≡ₚ events (applied prediction1 i1 (applied prediction2 i2 w)).
Proof.
  intros Hne.
  destruct (flipped_after_other prediction1 i1 prediction2 i2 w Hne) as (P2 & G2 & E2).
  destruct (flipped_after_other prediction2 i2 prediction1 i1 w) as (P1 & G1 & E1);
    [done |].
  unfold applied at 1 3 5 7 9 11; cbn [players games events].
  rewrite P1, P2, G1, G2, E1, E2, !lookup_player_applied, !decide_False by done.
  unfold applied; cbn [players games events]. split_and!.
  - apply insert_insert_ne. done.
  - apply insert_insert_ne. congruence.
  - rewrite <- !(assoc (++)). apply Permutation_app_head, Permutation_swap.
Qed.

(** X14. Calls made by different players commute: executed in either
    order from any world they leave the same Player table and the same
    Game table, and the same events up to their order; and whether a call
    goes through does not depend on the other call having been made. *)
Theorem different_players_commute (tx1 tx2 : Tx) (w : WorldStorage) :
  caller_address (tx_info tx1) ≠ caller_address (tx_info tx2) →
  succeeds tx1 (execute tx2 w) = succeeds tx1 w
  ∧ succeeds tx2 (execute tx1 w) = succeeds tx2 w
  ∧ players (execute tx2 (execute tx1 w)) = players (execute tx1 (execute tx2 w))
  ∧ games (execute tx2 (execute tx1 w)) = games (execute tx1 (execute tx2 w))
  ∧ events (execute tx2 (execute tx1 w)) ≡ₚ events (execute tx1 (execute tx2 w)).
Proof.
  intros Hne.
  assert (succeeds tx1 (execute tx2 w) = succeeds tx1 w) as S1.
  { apply same_for_own, same_for_other. done. }
  assert (succeeds tx2 (execute tx1 w) = succeeds tx2 w) as S2.
  { apply same_for_own, same_for_other. done. }
  split; [exact S1 |]. split; [exact S2 |].
  destruct (execute_cases tx1 (execute tx2 w)) as [(A1 & _ & E1) | (A1 & E1)],
           (execute_cases tx2 (execute tx1 w)) as [(A2 & _ & E2) | (A2 & E2)],
           (execute_cases tx1 w) as [(B1 & _ & F1) | (B1 & F1)],
           (execute_cases tx2 w) as [(B2 & _ & F2) | (B2 & F2)];
    try congruence; rewrite E1, E2; rewrite ?F1, ?F2; try done.
  by apply applied_commute.
Qed.

Lemma different_players_commute_witness :
  caller_address (tx_info (mkTx (mkInfo 1 100) 0))
  ≠ caller_address (tx_info (mkTx (mkInfo 2 101) 0))
  ∧ players (run [mkTx (mkInfo 1 100) 0; mkTx (mkInfo 2 101) 0] genesis)
    = players (run [mkTx (mkInfo 2 101) 0; mkTx (mkInfo 1 100) 0] genesis).
Proof.
  assert (caller_address (tx_info (mkTx (mkInfo 1 100) 0))
          ≠ caller_address (tx_info (mkTx (mkInfo 2 101) 0))) as H by (cbn; lia).
  split; [exact H |].
  destruct (different_players_commute _ _ genesis H) as (_ & _ & Hp & _).
  exact Hp.
Defined.

(** X15. The outcome can be known beforehand: in a world reached from the
    empty one, a caller below the [u32] bound who predicts the block
    timestamp modulo 2 makes a valid call that goes through and wins, and
    one who predicts the other side makes a valid call that goes through
    and loses. *)
Theorem timestamp_known_always_wins (txs : list Tx) (i : ExecutionInfo) :
  let w := run txs genesis in
  let p := caller_address i in
  let coin := block_timestamp i `mod` 2 in
  Player.total_flips (lookup_player w p) < u32_MAX →
  (∃ w', flip coin i w = Ok (tt, w')
         ∧ Flipped.won <$> last_event w' = Some true
         ∧ Player.wins (lookup_player w' p) = Player.wins (lookup_player w p) + 1
         ∧ Player.losses (lookup_player w' p) = Player.losses (lookup_player w p))
  ∧ (∃ w', flip (1 - coin) i w = Ok (tt, w')
           ∧ Flipped.won <$> last_event w' = Some false
           ∧ Player.wins (lookup_player w' p) = Player.wins (lookup_player w p)
           ∧ Player.losses (lookup_player w' p) = Player.losses (lookup_player w p) + 1).
Proof.
  intros w p coin Hlt. pose proof (reachable_ok txs) as Hw. fold w in Hw.
  assert (∀ prediction, prediction = 0 ∨ prediction = 1 →
            flip prediction i w = Ok (tt, applied prediction i w)
            ∧ Flipped.won <$> last_event (applied prediction i w)
              = Some (prediction =? coin)
            ∧ lookup_player (applied prediction i w) p = flipped_player prediction i w)
    as Hflip.
  { intros prediction Hp. split_and!.
    - apply flip_Ok_intro; [exact Hp |]. by apply counters_fit_ok.
    - unfold last_event. by rewrite events_applied, last_snoc.
    - by rewrite lookup_player_applied, decide_True. }
  pose proof (mod2_cases (block_timestamp i)) as Hcoin. fold coin in Hcoin.
  split.
  - destruct (Hflip coin Hcoin) as (H1 & H2 & H3).
    eexists. split; [exact H1 |]. rewrite H2, H3, Z.eqb_refl.
    unfold flipped_player; cbn. fold coin p. by rewrite Z.eqb_refl.
  - destruct (Hflip (1 - coin)) as (H1 & H2 & H3); [lia |].
    assert ((1 - coin =? coin) = false) as Hne by (apply Z.eqb_neq; lia).
    eexists. split; [exact H1 |]. rewrite H2, H3, Hne.
    unfold flipped_player; cbn. fold coin p. by rewrite Hne.
Qed.

Lemma timestamp_known_always_wins_witness :
  Player.total_flips (lookup_player (run [] genesis) (caller_address (mkInfo 1 7))) < u32_MAX
  ∧ ∃ w', flip 1 (mkInfo 1 7) genesis = Ok (tt, w')
          ∧ Flipped.won <$> last_event w' = Some true.
Proof.
  assert (Player.total_flips
            (lookup_player (run [] genesis) (caller_address (mkInfo 1 7))) < u32_MAX)
    as H by (vm_compute; reflexivity).
  split; [exact H |].
  destruct (timestamp_known_always_wins [] (mkInfo 1 7) H)
    as ((w' & H1 & H2 & _) & _).
  exists w'. split; [exact H1 | exact H2].
Defined.
